(** * cat-raoke: the music subscription of [src/music/youtube.ts]

    A shallow embedding of [MusicSubscription] (queue draining, voice
    connection resilience), of the module-level [subscriptions] registry and
    of [joinVCAndCreateSubscription].

    Conventions of the embedding.
    - The subscription object is a record; a method is a function from the
      object's fields before the call to the fields after it, together with
      the list of effects it performed on its collaborators, oldest first.
    - The audio player, the voice connection, the text channel and the
      interaction are collaborators of [@discordjs/voice] and [discord.js].
      A call of one of their methods is recorded as an [Effect]; the part of
      their state the code reads back ([audioPlayer.state],
      [voiceConnection.state.status], [voiceConnection.rejoinAttempts]) is a
      field of the record.  Their [stateChange] notifications reach the
      listeners installed by the constructor as events.
    - An [async] function is cut at each [await]: the function runs to its
      first [await] and reports what it waits for; a second function resumes
      it on the fields as they are when the awaited promise settles.
    - The recursion of [processQueue] is bounded by a fuel argument which
      counts the nested calls still allowed; running out of it is reported
      as [OutOfFuel], never as a return. *)

From Stdlib Require Import ZArith Lia.
From stdpp Require Import base strings list gmap.

Local Open Scope Z_scope.

(** ** Collaborator types *)

(** [Snowflake]: a Discord identifier. *)
Abbreviation Snowflake := string.

(** [AudioResource<Track>]; [metadata.data.title] is all the code reads. *)
Record AudioResource := { metadata_title : string }.

(** A JavaScript [Error]; the code reads [error.message]. *)
Record Error := { message : string }.

(** [Track] is imported from [./track.js]: a title and the
    [createAudioResource] method, taken here as its settled promise, a
    resource or the error it rejects with. *)
Record Track := {
  title : string;
  createAudioResource : AudioResource + Error
}.

(** [AudioPlayerStatus] and [AudioPlayerState] of [@discordjs/voice]: every
    state but [Idle] carries the resource in use. *)
Inductive AudioPlayerStatus := Idle | Buffering | Paused | Playing | AutoPaused.

Inductive AudioPlayerState :=
| IdleState
| BufferingState (resource : AudioResource)
| PausedState (resource : AudioResource)
| PlayingState (resource : AudioResource)
| AutoPausedState (resource : AudioResource).

Definition player_status (st : AudioPlayerState) : AudioPlayerStatus :=
  match st with
  | IdleState => Idle
  | BufferingState _ => Buffering
  | PausedState _ => Paused
  | PlayingState _ => Playing
  | AutoPausedState _ => AutoPaused
  end.

Definition AudioPlayerStatus_eqb (a b : AudioPlayerStatus) : bool :=
  match a, b with
  | Idle, Idle | Buffering, Buffering | Paused, Paused
  | Playing, Playing | AutoPaused, AutoPaused => true
  | _, _ => false
  end.

(** [VoiceConnectionStatus], [VoiceConnectionDisconnectReason] and
    [VoiceConnectionState]: [closeCode] is defined only on a
    [WebSocketClose] disconnection, [reason] only when disconnected. *)
Inductive VoiceConnectionStatus :=
  Signalling | Connecting | Ready | Disconnected | Destroyed.

Inductive VoiceConnectionDisconnectReason :=
  WebSocketClose | AdapterUnavailable | EndpointRemoved | Manual.

Record VoiceConnectionState := {
  status : VoiceConnectionStatus;
  reason : option VoiceConnectionDisconnectReason;
  closeCode : option Z
}.

Definition VoiceConnectionStatus_eqb (a b : VoiceConnectionStatus) : bool :=
  match a, b with
  | Signalling, Signalling | Connecting, Connecting | Ready, Ready
  | Disconnected, Disconnected | Destroyed, Destroyed => true
  | _, _ => false
  end.

Definition reason_is (r : VoiceConnectionDisconnectReason)
    (o : option VoiceConnectionDisconnectReason) : bool :=
  match o, r with
  | Some WebSocketClose, WebSocketClose
  | Some AdapterUnavailable, AdapterUnavailable
  | Some EndpointRemoved, EndpointRemoved
  | Some Manual, Manual => true
  | _, _ => false
  end.

Definition closeCode_is (c : Z) (o : option Z) : bool :=
  match o with Some c' => c' =? c | None => false end.

(** The part of the [VoiceConnection] handle the subscription reads. *)
Record VoiceConnection := {
  vc_status : VoiceConnectionStatus;
  rejoinAttempts : Z
}.

(** ** Effects on the collaborators *)

Inductive Effect :=
| Warn (error : Error)                    (* console.warn(error) *)
| Send (text : string)                    (* textChannel.send(text) *)
| FollowUp (text : string)                (* interaction.followUp(text) *)
| Play (resource : AudioResource)         (* audioPlayer.play(resource) *)
| PlayerStop (force : bool)               (* audioPlayer.stop(force) *)
| EntersState (target : VoiceConnectionStatus) (timeout : Z)
                                          (* entersState(voiceConnection, target, timeout) *)
| Wait (ms : Z)                           (* wait(ms) *)
| Rejoin                                  (* voiceConnection.rejoin() *)
| Destroy.                                (* voiceConnection.destroy() *)

(** ** The subscription object *)

Record MusicSubscription := {
  textChannelId : Snowflake;
  voiceChannelId : Snowflake;
  voiceConnection : VoiceConnection;
  audioPlayer : AudioPlayerState;
  queue : list Track;
  queueLock : bool;
  readyLock : bool
}.

Definition set_queue (q : list Track) (s : MusicSubscription) :=
  {| textChannelId := textChannelId s; voiceChannelId := voiceChannelId s;
     voiceConnection := voiceConnection s; audioPlayer := audioPlayer s;
     queue := q; queueLock := queueLock s; readyLock := readyLock s |}.

Definition set_queueLock (b : bool) (s : MusicSubscription) :=
  {| textChannelId := textChannelId s; voiceChannelId := voiceChannelId s;
     voiceConnection := voiceConnection s; audioPlayer := audioPlayer s;
     queue := queue s; queueLock := b; readyLock := readyLock s |}.

Definition set_readyLock (b : bool) (s : MusicSubscription) :=
  {| textChannelId := textChannelId s; voiceChannelId := voiceChannelId s;
     voiceConnection := voiceConnection s; audioPlayer := audioPlayer s;
     queue := queue s; queueLock := queueLock s; readyLock := b |}.

Definition set_audioPlayer (p : AudioPlayerState) (s : MusicSubscription) :=
  {| textChannelId := textChannelId s; voiceChannelId := voiceChannelId s;
     voiceConnection := voiceConnection s; audioPlayer := p;
     queue := queue s; queueLock := queueLock s; readyLock := readyLock s |}.

Definition set_voiceConnection (c : VoiceConnection) (s : MusicSubscription) :=
  {| textChannelId := textChannelId s; voiceChannelId := voiceChannelId s;
     voiceConnection := c; audioPlayer := audioPlayer s;
     queue := queue s; queueLock := queueLock s; readyLock := readyLock s |}.

(** The constructor: [createAudioPlayer()] starts idle, the queue is empty,
    both locks are clear. *)
Definition new_MusicSubscription (conn : VoiceConnection)
    (voiceChannel textChannel : Snowflake) : MusicSubscription :=
  {| textChannelId := textChannel; voiceChannelId := voiceChannel;
     voiceConnection := conn; audioPlayer := IdleState;
     queue := []; queueLock := false; readyLock := false |}.

(** ** Collaborator methods, as far as the code reads their result back *)

(** [audioPlayer.play(resource)]: the player leaves [Idle]; it reports
    [Playing] by a later [stateChange]. *)
Definition audioPlayer_play (resource : AudioResource) (s : MusicSubscription)
    : MusicSubscription * list Effect :=
  (set_audioPlayer (BufferingState resource) s, [Play resource]).

(** [audioPlayer.stop(true)]: a forced stop leaves the player idle. *)
Definition audioPlayer_stop (force : bool) (s : MusicSubscription)
    : MusicSubscription * list Effect :=
  (if force then set_audioPlayer IdleState s else s, [PlayerStop force]).

(** [voiceConnection.destroy()]. *)
Definition voiceConnection_destroy (s : MusicSubscription)
    : MusicSubscription * list Effect :=
  (set_voiceConnection
     {| vc_status := Destroyed;
        rejoinAttempts := rejoinAttempts (voiceConnection s) |} s,
   [Destroy]).

(** [Array.prototype.shift]: the head and the rest, [undefined] (here
    [None]) on an empty array, which stays empty. *)
Definition shift {A} (l : list A) : option A * list A :=
  match l with
  | [] => (None, [])
  | x :: l' => (Some x, l')
  end.

(** The error of [nextTrack.createAudioResource()] when [nextTrack] is
    [undefined], with the wording of V8. *)
Definition TypeError_undefined : Error :=
  {| message := "Cannot read properties of undefined (reading 'createAudioResource')" |}.

(** ** Queue draining *)

(** [onError] (lines 320-323): the error is logged, then sent to the text
    channel.  The caller does not await it; the notification is recorded at
    the call. *)
Definition error_text (error : Error) : string :=
  "Erreur: `" +:+ message error +:+ "`".

Definition onError (error : Error) : list Effect :=
  [Warn error; Send (error_text error)].

(** How far an invocation of [processQueue] got. *)
Inductive Outcome :=
| Returned (s : MusicSubscription) (out : list Effect)
| Suspended (s : MusicSubscription) (out : list Effect) (nextTrack : Track)
    (* at [await nextTrack.createAudioResource()], line 308 *)
| OutOfFuel (s : MusicSubscription) (out : list Effect).
    (* still recursing when the fuel ran out *)

(** Effects performed before an outcome. *)
Definition after (pre : list Effect) (o : Outcome) : Outcome :=
  match o with
  | Returned s out => Returned s (pre ++ out)
  | Suspended s out t => Suspended s (pre ++ out) t
  | OutOfFuel s out => OutOfFuel s (pre ++ out)
  end.

(** The guard of lines 294-297. *)
Definition processQueue_guard (s : MusicSubscription) : bool :=
  queueLock s || negb (AudioPlayerStatus_eqb (player_status (audioPlayer s)) Idle).

(** The [catch] block, lines 311-317; [recurse] is [this.processQueue]. *)
Definition processQueue_catch (recurse : MusicSubscription -> Outcome)
    (error : Error) (s : MusicSubscription) : Outcome :=
  let out := onError error in
  let s := set_queueLock false s in
  after out (recurse s).

(** [processQueue] up to its [await] (lines 292-308).  With [nextTrack]
    undefined the member access of line 308 throws inside the [try], and the
    [catch] block runs at once. *)
Fixpoint processQueue (fuel : nat) (s : MusicSubscription) : Outcome :=
  if processQueue_guard s then Returned s []
  else
    let s := set_queueLock true s in
    let '(nextTrack, rest) := shift (queue s) in
    let s := set_queue rest s in
    match nextTrack with
    | Some track => Suspended s [] track
    | None =>
        processQueue_catch
          (match fuel with
           | O => fun s => OutOfFuel s []
           | S fuel' => processQueue fuel'
           end)
          TypeError_undefined s
    end.

(** [processQueue] from its [await] on (lines 308-317), once the promise of
    [createAudioResource] has settled. *)
Definition processQueue_settle (fuel : nat) (settled : AudioResource + Error)
    (s : MusicSubscription) : Outcome :=
  match settled with
  | inl resource =>
      let '(s, out) := audioPlayer_play resource s in
      Returned (set_queueLock false s) out
  | inr error => processQueue_catch (processQueue fuel) error s
  end.

(** An invocation run with nothing else happening while it waits: each
    awaited promise settles with the outcome of its track. *)
Fixpoint settle_all (fuel : nat) (o : Outcome) : Outcome :=
  match o, fuel with
  | Suspended s out nextTrack, S fuel' =>
      settle_all fuel'
        (after out (processQueue_settle fuel' (createAudioResource nextTrack) s))
  | _, _ => o
  end.

Definition processQueue_run (fuel : nat) (s : MusicSubscription) : Outcome :=
  settle_all fuel (processQueue fuel s).

(** [enqueue] (lines 275-278) and [stop] (lines 283-287). *)
Definition enqueue (fuel : nat) (track : Track) (s : MusicSubscription) : Outcome :=
  let s := set_queue (queue s ++ [track]) s in
  processQueue fuel s.

Definition stop (s : MusicSubscription) : MusicSubscription * list Effect :=
  let s := set_queueLock true s in
  let s := set_queue [] s in
  audioPlayer_stop true s.

(** The listener of the audio player (lines 219-246): [oldState] and
    [newState] are its arguments; the player has [newState] when it runs. *)
Definition queue_empty_text : string :=
  "La queue est vide, aucune piste n'est jouée.".

Definition now_playing_text (songTitle : string) : string :=
  "En cours de lecture : `" +:+ songTitle +:+ "`".

Definition onAudioPlayerStateChange (fuel : nat)
    (oldState newState : AudioPlayerState) (s : MusicSubscription) : Outcome :=
  if AudioPlayerStatus_eqb (player_status newState) Idle
     && negb (AudioPlayerStatus_eqb (player_status oldState) Idle)
  then
    if (length (queue s) =? 0)%nat then Returned s [Send queue_empty_text]
    else processQueue fuel s
  else
    match newState with
    | PlayingState resource =>
        Returned s [Send (now_playing_text (metadata_title resource))]
    | _ => Returned s []
    end.

(** ** Connection resilience *)

(** What the listener of the voice connection waits for when it suspends. *)
Inductive VoiceWait :=
| AwaitConnecting   (* entersState(voiceConnection, Connecting, 5_000), line 160 *)
| AwaitBackoff      (* wait((rejoinAttempts + 1) * 5_000), line 174 *)
| AwaitReady.       (* entersState(voiceConnection, Ready, 20_000), line 199 *)

Inductive VoiceOutcome :=
| VoiceDone (s : MusicSubscription) (out : list Effect)
| VoiceSuspended (s : MusicSubscription) (out : list Effect) (w : VoiceWait).

(** The listener up to its first [await] (lines 145-199). *)
Definition onVoiceStateChange (newState : VoiceConnectionState)
    (s : MusicSubscription) : VoiceOutcome :=
  if VoiceConnectionStatus_eqb (status newState) Disconnected then
    if reason_is WebSocketClose (reason newState)
       && closeCode_is 4014 (closeCode newState)
    then VoiceSuspended s [EntersState Connecting 5000] AwaitConnecting
    else if rejoinAttempts (voiceConnection s) <? 5 then
      VoiceSuspended s
        [Wait ((rejoinAttempts (voiceConnection s) + 1) * 5000)] AwaitBackoff
    else
      let '(s, out) := voiceConnection_destroy s in VoiceDone s out
  else if VoiceConnectionStatus_eqb (status newState) Destroyed then
    let '(s, out) := stop s in VoiceDone s out
  else if negb (readyLock s)
          && (VoiceConnectionStatus_eqb (status newState) Connecting
              || VoiceConnectionStatus_eqb (status newState) Signalling)
  then
    let s := set_readyLock true s in
    VoiceSuspended s [EntersState Ready 20000] AwaitReady
  else VoiceDone s [].

(** The listener from its [await] on: [resolved] tells whether the awaited
    promise resolved (the state was reached, the delay elapsed) or rejected
    (time-out or any other error). *)
Definition onVoiceStateChange_settle (w : VoiceWait) (resolved : bool)
    (s : MusicSubscription) : MusicSubscription * list Effect :=
  match w with
  | AwaitConnecting =>
      if resolved then (s, []) else voiceConnection_destroy s
  | AwaitBackoff => (s, [Rejoin])
  | AwaitReady =>
      let '(s, out) :=
        if resolved then (s, [])
        else if negb (VoiceConnectionStatus_eqb
                        (vc_status (voiceConnection s)) Destroyed)
        then voiceConnection_destroy s
        else (s, []) in
      (set_readyLock false s, out)
  end.

(** ** One subscription under its events *)

(** A subscription with the continuations that wait on it: the tracks
    whose [createAudioResource] promise is pending, and the waits of the
    voice listener, oldest first. *)
Record Sys := {
  sub : MusicSubscription;
  loading : list Track;
  waiting : list VoiceWait
}.

Inductive Event :=
| CallEnqueue (track : Track)
| CallStop
| CallProcessQueue
| PlayerStateChange (oldState newState : AudioPlayerState)
| VoiceStateChange (newState : VoiceConnectionState)
| TrackSettled                 (* the oldest pending [createAudioResource] settles *)
| VoiceSettled (resolved : bool).   (* the oldest wait of the voice listener settles *)

Inductive Step :=
| Ok (sys : Sys) (out : list Effect)
| Diverged (sys : Sys) (out : list Effect).

Definition of_outcome (sys : Sys) (o : Outcome) : Step :=
  match o with
  | Returned s out =>
      Ok {| sub := s; loading := loading sys; waiting := waiting sys |} out
  | Suspended s out nextTrack =>
      Ok {| sub := s; loading := loading sys ++ [nextTrack];
            waiting := waiting sys |} out
  | OutOfFuel s out =>
      Diverged {| sub := s; loading := loading sys; waiting := waiting sys |} out
  end.

Definition of_voice (sys : Sys) (o : VoiceOutcome) : Step :=
  match o with
  | VoiceDone s out =>
      Ok {| sub := s; loading := loading sys; waiting := waiting sys |} out
  | VoiceSuspended s out w =>
      Ok {| sub := s; loading := loading sys; waiting := waiting sys ++ [w] |} out
  end.

Definition dispatch (fuel : nat) (ev : Event) (sys : Sys) : Step :=
  match ev with
  | CallEnqueue track => of_outcome sys (enqueue fuel track (sub sys))
  | CallStop =>
      let '(s, out) := stop (sub sys) in
      Ok {| sub := s; loading := loading sys; waiting := waiting sys |} out
  | CallProcessQueue => of_outcome sys (processQueue fuel (sub sys))
  | PlayerStateChange oldState newState =>
      of_outcome sys
        (onAudioPlayerStateChange fuel oldState newState
           (set_audioPlayer newState (sub sys)))
  | VoiceStateChange newState =>
      let conn := {| vc_status := status newState;
                     rejoinAttempts := rejoinAttempts (voiceConnection (sub sys)) |} in
      of_voice sys (onVoiceStateChange newState (set_voiceConnection conn (sub sys)))
  | TrackSettled =>
      match loading sys with
      | [] => Ok sys []
      | track :: rest =>
          of_outcome {| sub := sub sys; loading := rest; waiting := waiting sys |}
            (processQueue_settle fuel (createAudioResource track) (sub sys))
      end
  | VoiceSettled resolved =>
      match waiting sys with
      | [] => Ok sys []
      | w :: rest =>
          let '(s, out) := onVoiceStateChange_settle w resolved (sub sys) in
          Ok {| sub := s; loading := loading sys; waiting := rest |} out
      end
  end.

Fixpoint run_events (fuel : nat) (evs : list Event) (sys : Sys) : Step :=
  match evs with
  | [] => Ok sys []
  | ev :: evs' =>
      match dispatch fuel ev sys with
      | Ok sys' out =>
          match run_events fuel evs' sys' with
          | Ok sys'' out' => Ok sys'' (out ++ out')
          | Diverged sys'' out' => Diverged sys'' (out ++ out')
          end
      | Diverged sys' out => Diverged sys' out
      end
  end.

(** ** The registry and the bootstrap *)

(** Subscription objects live in a store and are named by reference; the
    module-level [subscriptions] map (line 51) holds references. *)
Record World := {
  heap : gmap nat Sys;
  subscriptions : gmap string nat
}.

Record VoiceChannel := {
  channel_id : Snowflake;
  channel_guildId : Snowflake;
  channel_name : string
}.

(** [member_voice_channel] is [interaction.member.voice.channel], absent
    when the member is no [GuildMember] or is in no voice channel. *)
Record CommandInteraction := {
  channelId : Snowflake;
  guildId : Snowflake;
  member_voice_channel : option VoiceChannel
}.

Definition join_first_text : string :=
  "Rejoins un salon vocal et ensuite essaye à nouveau ^^".

Definition join_timeout_text : string :=
  "Je n'ai pas réussi à rejoindre le salon vocal dans les 20 secondes, veuillez réessayer plus tard".

Definition joined_text (name : string) : string :=
  "J'ai rejoint le salon vocal `" +:+ name +:+ "`".

Inductive JoinOutcome :=
| JoinReturned (w : World) (out : list Effect) (result : option nat)
| JoinSuspended (w : World) (out : list Effect) (subscription : nat).
    (* at [await entersState(..., Ready, 20e3)], line 89 *)

(** [joinVCAndCreateSubscription] up to its wait for [Ready] (lines 53-93);
    [conn] is the handle [joinVoiceChannel] returns. *)
Definition joinVCAndCreateSubscription (conn : VoiceConnection)
    (subscription : option nat) (interaction : CommandInteraction)
    (w : World) : JoinOutcome :=
  match subscription with
  | Some _ => JoinReturned w [] subscription
  | None =>
      let '(subscription, w) :=
        match member_voice_channel interaction with
        | Some voiceChannel =>
            let ref := fresh (dom (heap w)) in
            let object :=
              {| sub := new_MusicSubscription conn (channel_id voiceChannel)
                          (channelId interaction);
                 loading := []; waiting := [] |} in
            (Some ref,
             {| heap := <[ref := object]> (heap w);
                subscriptions := <[guildId interaction := ref]> (subscriptions w) |})
        | None => (None, w)
        end in
      match subscription with
      | None => JoinReturned w [FollowUp join_first_text] None
      | Some ref => JoinSuspended w [EntersState Ready 20000] ref
      end
  end.

(** The rest of it (lines 94-109): [settled] is [inl name] when the
    connection became ready, with the name of the voice channel then
    fetched, and [inr err] when [entersState] rejected. *)
Definition joinVCAndCreateSubscription_settle (settled : string + Error)
    (subscription : nat) (w : World) : World * list Effect * option nat :=
  match settled with
  | inr err => (w, [Warn err; FollowUp join_timeout_text], None)
  | inl name => (w, [FollowUp (joined_text name)], Some subscription)
  end.

(** An event delivered to the object a reference names. *)
Definition deliver (fuel : nat) (ref : nat) (ev : Event) (w : World)
    : option (World * list Effect) :=
  match heap w !! ref with
  | None => None
  | Some sys =>
      match dispatch fuel ev sys with
      | Ok sys' out =>
          Some ({| heap := <[ref := sys']> (heap w);
                   subscriptions := subscriptions w |}, out)
      | Diverged _ _ => None
      end
  end.

(** Listeners run with nothing else happening while they wait. *)
Definition voice_reaction (resolved : bool) (newState : VoiceConnectionState)
    (s : MusicSubscription) : MusicSubscription * list Effect :=
  match onVoiceStateChange newState s with
  | VoiceDone s out => (s, out)
  | VoiceSuspended s out w =>
      let '(s, out') := onVoiceStateChange_settle w resolved s in
      (s, out ++ out')
  end.

Definition joinVCAndCreateSubscription_run (conn : VoiceConnection)
    (settled : string + Error) (subscription : option nat)
    (interaction : CommandInteraction) (w : World)
    : World * list Effect * option nat :=
  match joinVCAndCreateSubscription conn subscription interaction w with
  | JoinReturned w out result => (w, out, result)
  | JoinSuspended w out ref =>
      let '(w, out', result) := joinVCAndCreateSubscription_settle settled ref w in
      (w, out ++ out', result)
  end.

(** ** Readings of an effect list *)

Definition notifications (out : list Effect) : list string :=
  omap (fun e => match e with Send text => Some text | _ => None end) out.

Definition played (out : list Effect) : list AudioResource :=
  omap (fun e => match e with Play resource => Some resource | _ => None end) out.

(** The subscription once [resource] plays and [rest] is still queued. *)
Definition playing (resource : AudioResource) (rest : list Track)
    (s : MusicSubscription) : MusicSubscription :=
  set_queueLock false (set_audioPlayer (BufferingState resource) (set_queue rest s)).

(** The error a track fails with, if it fails. *)
Definition failure (track : Track) : option Error :=
  match createAudioResource track with
  | inl _ => None
  | inr error => Some error
  end.

(** The queue lock at work: an invocation of [processQueue] is suspended
    only while the lock is set, and no two are. *)
Definition single_flight (sys : Sys) : Prop :=
  loading sys = [] \/
  (queueLock (sub sys) = true /\ exists track, loading sys = [track]).

(** The events of one track played to its end: its resource settles, the
    player reports [Playing], then [Idle]. *)
Definition plays_through (resource : AudioResource) : list Event :=
  [TrackSettled;
   PlayerStateChange (BufferingState resource) (PlayingState resource);
   PlayerStateChange (PlayingState resource) IdleState].

(** The ready-wait lock at work: the lock is set exactly while one wait for
    [Ready] of the voice listener is pending, and no two are. *)
Definition is_AwaitReady (w : VoiceWait) : bool :=
  match w with AwaitReady => true | _ => false end.

Definition ready_waits (sys : Sys) : nat :=
  length (List.filter is_AwaitReady (waiting sys)).

Definition one_ready_wait (sys : Sys) : Prop :=
  ready_waits sys = if readyLock (sub sys) then 1%nat else 0%nat.

(** The waits of the voice listener need not settle oldest first: an
    occurrence is an event, or the settling of the wait at a given place
    among the pending ones. *)
Inductive Occurrence :=
| Occurs (ev : Event)
| VoiceSettledAt (i : nat) (resolved : bool).

Definition settle_voice_at (i : nat) (resolved : bool) (sys : Sys) : Step :=
  match waiting sys !! i with
  | None => Ok sys []
  | Some w =>
      let '(s, out) := onVoiceStateChange_settle w resolved (sub sys) in
      Ok {| sub := s; loading := loading sys; waiting := delete i (waiting sys) |}
         out
  end.

Definition occur (fuel : nat) (o : Occurrence) (sys : Sys) : Step :=
  match o with
  | Occurs ev => dispatch fuel ev sys
  | VoiceSettledAt i resolved => settle_voice_at i resolved sys
  end.

Fixpoint run_occurrences (fuel : nat) (os : list Occurrence) (sys : Sys) : Step :=
  match os with
  | [] => Ok sys []
  | o :: os' =>
      match occur fuel o sys with
      | Ok sys' out =>
          match run_occurrences fuel os' sys' with
          | Ok sys'' out' => Ok sys'' (out ++ out')
          | Diverged sys'' out' => Diverged sys'' (out ++ out')
          end
      | Diverged sys' out => Diverged sys' out
      end
  end.

(** The longest waits of the voice listener: 25 seconds of back-off, 20
    seconds for a state to be entered. *)
Definition bounded_wait (e : Effect) : Prop :=
  match e with
  | Wait ms => ms <= 25000
  | EntersState _ timeout => timeout <= 20000
  | _ => True
  end.

(** The effects of the voice listener up to its first [await]. *)
Definition voice_effects (o : VoiceOutcome) : list Effect :=
  match o with
  | VoiceDone _ out => out
  | VoiceSuspended _ out _ => out
  end.

(** ** Sample data *)

Module Sample.

Definition resource (name : string) : AudioResource :=
  {| metadata_title := name |}.

Definition good (name : string) : Track :=
  {| title := name; createAudioResource := inl (resource name) |}.

Definition broken (name why : string) : Track :=
  {| title := name; createAudioResource := inr {| message := why |} |}.

Definition connection (n : Z) : VoiceConnection :=
  {| vc_status := Signalling; rejoinAttempts := n |}.

(** A subscription as the constructor leaves it. *)
Definition fresh_subscription : MusicSubscription :=
  new_MusicSubscription (connection 0) "voice" "text".

Definition fresh_sys : Sys :=
  {| sub := fresh_subscription; loading := []; waiting := [] |}.

Definition disconnected (why : VoiceConnectionDisconnectReason)
    (code : option Z) : VoiceConnectionState :=
  {| status := Disconnected; reason := Some why; closeCode := code |}.

Definition entered (st : VoiceConnectionStatus) : VoiceConnectionState :=
  {| status := st; reason := None; closeCode := None |}.

Definition interaction : CommandInteraction :=
  {| channelId := "text"; guildId := "guild";
     member_voice_channel :=
       Some {| channel_id := "voice"; channel_guildId := "guild";
               channel_name := "General" |} |}.

Definition empty_world : World := {| heap := ∅; subscriptions := ∅ |}.

(** The world once the bootstrap has created and registered a
    subscription for ["guild"]. *)
Definition joined_world : World :=
  {| heap := {[ 0%nat := fresh_sys ]};
     subscriptions := {[ "guild" := 0%nat ]} |}.

End Sample.

(** * Properties *)

(** ** Basic facts *)

(** Case analysis on the condition of a conditional in the goal. *)
Ltac case_if :=
  match goal with |- context [if ?b then _ else _] => destruct b end.

Lemma after_nil o : after [] o = o.
Proof. by destruct o. Qed.

Lemma after_after pre pre' o : after pre (after pre' o) = after (pre ++ pre') o.
Proof. destruct o; simpl; by rewrite app_assoc. Qed.

Lemma guard_open s :
  processQueue_guard s = false ->
  queueLock s = false /\ audioPlayer s = IdleState.
Proof.
  unfold processQueue_guard. intros H.
  apply orb_false_iff in H as [Hl Hp]. split; [done|].
  destruct (audioPlayer s); simpl in Hp; congruence.
Qed.

Lemma guard_closed s :
  queueLock s = true \/ player_status (audioPlayer s) <> Idle ->
  processQueue_guard s = true.
Proof.
  unfold processQueue_guard. intros [-> | Hp]; [done|].
  destruct (audioPlayer s); simpl in *; try congruence; by rewrite orb_true_r.
Qed.

Lemma guard_open_iff s :
  processQueue_guard s = false <->
  queueLock s = false /\ audioPlayer s = IdleState.
Proof.
  split; [apply guard_open|]. intros [Hl Hp].
  unfold processQueue_guard. by rewrite Hl, Hp.
Qed.

(** A closed guard: the call returns where it stands. *)
Lemma processQueue_guarded fuel s :
  processQueue_guard s = true -> processQueue fuel s = Returned s [].
Proof. intros H. destruct fuel; simpl; by rewrite H. Qed.

Lemma processQueue_locked fuel s :
  queueLock s = true -> processQueue fuel s = Returned s [].
Proof. intros H. apply processQueue_guarded, guard_closed. by left. Qed.

(** One unfolding of [processQueue] past its guard. *)
Lemma processQueue_head fuel s track rest :
  processQueue_guard s = false ->
  queue s = track :: rest ->
  processQueue fuel s = Suspended (set_queue rest (set_queueLock true s)) [] track.
Proof.
  intros Hg Hq. destruct fuel; simpl; rewrite Hg, Hq; reflexivity.
Qed.

Lemma processQueue_empty_step fuel s :
  processQueue_guard s = false ->
  queue s = [] ->
  processQueue (S fuel) s =
    after (onError TypeError_undefined) (processQueue fuel s).
Proof.
  intros Hg Hq. simpl. rewrite Hg, Hq. simpl.
  unfold processQueue_catch. f_equal. f_equal.
  apply guard_open in Hg as [Hl _]. destruct s; simpl in *; by subst.
Qed.

(** On an empty queue, unlocked and idle, [processQueue] reports the
    [TypeError], unlocks and calls itself again, as deep as the fuel goes. *)
Lemma processQueue_empty_recurses fuel s :
  processQueue_guard s = false ->
  queue s = [] ->
  processQueue fuel s =
    OutOfFuel s (concat (replicate (S fuel) (onError TypeError_undefined))).
Proof.
  intros Hg Hq. induction fuel as [|fuel IH].
  - simpl. rewrite Hg, Hq. simpl. unfold processQueue_catch. simpl.
    apply guard_open in Hg as [Hl _]. destruct s; simpl in *; by subst.
  - rewrite processQueue_empty_step by done. rewrite IH. reflexivity.
Qed.

Lemma settle_all_Returned fuel s out :
  settle_all fuel (Returned s out) = Returned s out.
Proof. by destruct fuel. Qed.

Lemma settle_all_OutOfFuel fuel s out :
  settle_all fuel (OutOfFuel s out) = OutOfFuel s out.
Proof. by destruct fuel. Qed.

(** The uninterrupted run skips the failing tracks at the head of the queue,
    reporting each, and plays the first track that materializes. *)
Lemma settle_all_skips_failures failing :
  forall fuel fuel' s pre errors track resource rest,
    processQueue_guard s = false ->
    queue s = failing ++ track :: rest ->
    failure <$> failing = Some <$> errors ->
    createAudioResource track = inl resource ->
    (length failing < fuel)%nat ->
    settle_all fuel (after pre (processQueue fuel' s)) =
      Returned (playing resource rest s)
        (pre ++ concat (onError <$> errors) ++ [Play resource]).
Proof.
  induction failing as [|t failing IH];
    intros fuel fuel' s pre errors track resource rest Hg Hq Hf Hr Hfuel.
  - destruct errors; [|done]. simpl in Hq.
    rewrite (processQueue_head _ _ _ _ Hg Hq). simpl.
    destruct fuel as [|fuel]; [simpl in Hfuel; lia|]. simpl.
    rewrite Hr. simpl. rewrite settle_all_Returned.
    by rewrite app_nil_r.
  - destruct errors as [|e errors]; [done|]. simpl in Hq, Hf.
    injection Hf as He Hf.
    rewrite (processQueue_head _ _ _ _ Hg Hq). simpl.
    destruct fuel as [|fuel]; [simpl in Hfuel; lia|]. simpl.
    unfold failure in He. destruct (createAudioResource t) as [|e'] eqn:Ht; [done|].
    injection He as ->. simpl. unfold processQueue_catch.
    rewrite after_after, app_nil_r.
    apply guard_open in Hg as [Hl Hp].
    rewrite (IH fuel fuel _ (pre ++ onError e) errors track resource rest);
      try done.
    + by rewrite <- !app_assoc.
    + apply guard_open_iff. by simpl.
    + simpl in Hfuel. lia.
Qed.

Lemma notifications_app out out' :
  notifications (out ++ out') = notifications out ++ notifications out'.
Proof. apply omap_app. Qed.

Lemma played_app out out' : played (out ++ out') = played out ++ played out'.
Proof. apply omap_app. Qed.

Lemma notifications_errors errors :
  notifications (concat (onError <$> errors)) = error_text <$> errors.
Proof.
  induction errors as [|e errors IH]; [done|].
  rewrite !fmap_cons.
  change (concat (onError e :: (onError <$> errors)))
    with (onError e ++ concat (onError <$> errors)).
  rewrite notifications_app, IH. reflexivity.
Qed.

Lemma played_errors errors : played (concat (onError <$> errors)) = [].
Proof.
  induction errors as [|e errors IH]; [done|].
  rewrite fmap_cons.
  change (concat (onError e :: (onError <$> errors)))
    with (onError e ++ concat (onError <$> errors)).
  rewrite played_app, IH. reflexivity.
Qed.

(** ** Queue draining: the guard (C4) *)

(** C4. A call of [processQueue] made while the queue-lock flag is set, or
    while the audio player is not idle, returns at once: no effect is
    performed and the subscription (queue, both locks, player state) is the
    one it was called on. *)
Theorem processQueue_locked_or_busy_is_noop fuel s :
  queueLock s = true \/ player_status (audioPlayer s) <> Idle ->
  processQueue fuel s = Returned s [].
Proof.
  intros H. by apply processQueue_guarded, guard_closed.
Qed.

Lemma processQueue_locked_or_busy_is_noop_witness :
  let locked := set_queueLock true
                  (set_queue [Sample.good "A"] Sample.fresh_subscription) in
  let busy := set_audioPlayer (PlayingState (Sample.resource "A"))
                (set_queue [Sample.good "B"] Sample.fresh_subscription) in
  processQueue 0 locked = Returned locked [] /\
  processQueue 3 busy = Returned busy [].
Proof.
  split.
  - apply processQueue_locked_or_busy_is_noop. left. reflexivity.
  - apply processQueue_locked_or_busy_is_noop. right. simpl. discriminate.
Defined.

(** ** Queue draining: skipping failures (C5) *)

(** C5. Take a subscription that is unlocked with an idle player, whose
    queue starts with [k] tracks that fail to materialize, followed by a
    track that materializes.  A run of [processQueue] returns, having played
    exactly that track and sent exactly [k] error notifications, those of
    the failing tracks in queue order; the tracks behind stay queued. *)
Theorem processQueue_plays_first_playable fuel s failing errors track resource rest :
  queueLock s = false ->
  audioPlayer s = IdleState ->
  queue s = failing ++ track :: rest ->
  failure <$> failing = Some <$> errors ->
  createAudioResource track = inl resource ->
  (length failing < fuel)%nat ->
  exists out,
    processQueue_run fuel s = Returned (playing resource rest s) out /\
    out = concat (onError <$> errors) ++ [Play resource] /\
    played out = [resource] /\
    notifications out = error_text <$> errors /\
    length (notifications out) = length failing.
Proof.
  intros Hl Hp Hq Hf Hr Hfuel.
  assert (Hg : processQueue_guard s = false) by by apply guard_open_iff.
  eexists. split; [|split; [reflexivity|]].
  - unfold processQueue_run.
    rewrite <- (after_nil (processQueue fuel s)).
    by rewrite (settle_all_skips_failures failing fuel fuel s [] errors
                  track resource rest).
  - assert (Hlen : length errors = length failing).
    { rewrite <- (length_fmap Some errors), <- Hf. by rewrite length_fmap. }
    rewrite played_app, notifications_app, played_errors, notifications_errors.
    simpl. rewrite app_nil_r, length_fmap. done.
Qed.

Lemma processQueue_plays_first_playable_witness :
  let s := set_queue [Sample.broken "X" "gone"; Sample.broken "Y" "private";
                      Sample.good "A"; Sample.good "B"]
             Sample.fresh_subscription in
  exists out,
    processQueue_run 3 s =
      Returned (playing (Sample.resource "A") [Sample.good "B"] s) out /\
    out = concat (onError <$> [ {| message := "gone" |}; {| message := "private" |} ])
          ++ [Play (Sample.resource "A")] /\
    played out = [Sample.resource "A"] /\
    notifications out = error_text <$> [ {| message := "gone" |}; {| message := "private" |} ] /\
    length (notifications out) = 2%nat.
Proof.
  apply (processQueue_plays_first_playable 3
           (set_queue [Sample.broken "X" "gone"; Sample.broken "Y" "private";
                       Sample.good "A"; Sample.good "B"]
              Sample.fresh_subscription)
           [Sample.broken "X" "gone"; Sample.broken "Y" "private"]
           [ {| message := "gone" |}; {| message := "private" |} ]
           (Sample.good "A") (Sample.resource "A") [Sample.good "B"]);
    try reflexivity.
  simpl. lia.
Defined.

(** ** Queue draining: the empty queue (C1, C3) *)

(** Past the guard with an empty queue, the element line 305 removes is
    [undefined]. *)
Lemma shift_undefined s :
  queue s = [] ->
  shift (queue (set_queueLock true s)) = (None, []).
Proof. simpl. by intros ->. Qed.

(** A run over a queue whose tracks all fail reaches the empty queue and
    never returns, whatever the fuel. *)
Lemma settle_all_never_returns_when_all_fail failing :
  forall fuel fuel' s pre errors,
    processQueue_guard s = false ->
    queue s = failing ->
    failure <$> failing = Some <$> errors ->
    forall s' out,
      settle_all fuel (after pre (processQueue fuel' s)) <> Returned s' out.
Proof.
  induction failing as [|t failing IH];
    intros fuel fuel' s pre errors Hg Hq Hf s' out.
  - rewrite processQueue_empty_recurses by done. simpl.
    by rewrite settle_all_OutOfFuel.
  - destruct errors as [|e errors]; [done|]. simpl in Hf.
    injection Hf as He Hf.
    rewrite (processQueue_head _ _ _ _ Hg Hq). simpl.
    destruct fuel as [|fuel]; [done|]. simpl.
    unfold failure in He.
    destruct (createAudioResource t) as [|e'] eqn:Ht; [done|].
    simpl. unfold processQueue_catch. rewrite after_after.
    apply guard_open in Hg as [Hl Hp].
    apply (IH fuel fuel _ _ errors); [|done..].
    apply guard_open_iff. by simpl.
Qed.

(** C1. The recursion of [processQueue] does not stop at the empty queue.
    Called on a fresh subscription (unlocked, idle, nothing queued) it is
    still recursing when the fuel runs out, for every fuel, with one
    [TypeError] report per nested call.  The same happens once a queue of
    one failing track has been drained: the run reports that track's
    error, then recurses on the empty queue, and for no fuel does it
    return. *)
Theorem processQueue_does_not_stop_at_empty_queue fuel :
  let s := Sample.fresh_subscription in
  let s1 := set_queue [Sample.broken "X" "gone"] s in
  processQueue fuel s =
    OutOfFuel s (concat (replicate (S fuel) (onError TypeError_undefined))) /\
  processQueue_run (S fuel) s1 =
    OutOfFuel s (onError {| message := "gone" |}
                 ++ concat (replicate (S fuel) (onError TypeError_undefined))) /\
  (forall s' out, processQueue_run fuel s1 <> Returned s' out).
Proof.
  intros s s1. split; [|split].
  - by apply processQueue_empty_recurses.
  - unfold processQueue_run.
    rewrite (processQueue_head _ s1 (Sample.broken "X" "gone") []) by done.
    simpl settle_all. unfold processQueue_catch.
    change (set_queueLock false
              (set_queue [] (set_queueLock true s1))) with s.
    rewrite (processQueue_empty_recurses fuel s) by done.
    simpl after. by rewrite settle_all_OutOfFuel.
  - intros s' out. unfold processQueue_run.
    rewrite <- (after_nil (processQueue fuel s1)).
    by apply (settle_all_never_returns_when_all_fail
                [Sample.broken "X" "gone"] fuel fuel s1 []
                [ {| message := "gone" |} ]).
Qed.

(** C3. [processQueue] can pass its guard with an empty queue: on a fresh
    subscription the guard is open, the element removed at line 305 is
    [undefined], and the first thing the call does with it is to report the
    [TypeError] of the member access. *)
Theorem processQueue_removes_undefined_from_empty_queue :
  let s := Sample.fresh_subscription in
  queue s = [] /\
  processQueue_guard s = false /\
  fst (shift (queue (set_queueLock true s))) = None /\
  processQueue 0 s = OutOfFuel s (onError TypeError_undefined).
Proof. repeat split. Qed.

(** ** The queue lock *)

(** How [processQueue] can end: it returns only at its guard, and suspends
    only after taking the lock. *)
Lemma processQueue_outcome fuel s :
  match processQueue fuel s with
  | Returned s' out => s' = s /\ out = []
  | Suspended s' _ _ => queueLock s = false /\ queueLock s' = true
  | OutOfFuel _ _ => True
  end.
Proof.
  destruct (processQueue_guard s) eqn:Hg.
  - by rewrite processQueue_guarded.
  - destruct (queue s) as [|track rest] eqn:Hq.
    + by rewrite processQueue_empty_recurses.
    + rewrite (processQueue_head _ _ _ _ Hg Hq). simpl.
      by apply guard_open in Hg as [-> _].
Qed.

Lemma processQueue_settle_outcome fuel settled s :
  match processQueue_settle fuel settled s with
  | Returned s' _ => queueLock s' = false
  | Suspended s' _ _ => queueLock s' = true
  | OutOfFuel _ _ => True
  end.
Proof.
  destruct settled as [resource|error]; simpl; [done|].
  unfold processQueue_catch.
  pose proof (processQueue_outcome fuel (set_queueLock false s)) as H.
  destruct (processQueue fuel (set_queueLock false s)); simpl; [|tauto|done].
  by destruct H as [-> _].
Qed.

Lemma single_flight_call fuel sys s sys' out :
  single_flight sys ->
  queueLock s = queueLock (sub sys) ->
  of_outcome sys (processQueue fuel s) = Ok sys' out ->
  single_flight sys'.
Proof.
  intros Hsf Hl Hok.
  pose proof (processQueue_outcome fuel s) as H.
  destruct (processQueue fuel s) as [s1 o1|s1 o1 t|s1 o1]; simpl in Hok; [| |done].
  - injection Hok as <- _. destruct H as [-> _].
    unfold single_flight in *. simpl. by rewrite Hl.
  - injection Hok as <- _. destruct H as [Hf Ht].
    unfold single_flight in *. simpl. right. split; [done|].
    destruct Hsf as [-> | [Hc _]]; [by exists t|congruence].
Qed.

(** Every event keeps it so. *)
Lemma dispatch_single_flight fuel ev sys sys' out :
  single_flight sys ->
  dispatch fuel ev sys = Ok sys' out ->
  single_flight sys'.
Proof.
  intros Hsf. destruct ev as [t| | |o n|n| |resolved]; simpl.
  - by apply single_flight_call.
  - intros [= <- _]. unfold single_flight in *. simpl. tauto.
  - by apply single_flight_call.
  - unfold onAudioPlayerStateChange.
    destruct (_ && _).
    + destruct (_ =? _)%nat.
      * simpl. by intros [= <- _].
      * by apply single_flight_call.
    + destruct n; simpl; by intros [= <- _].
  - unfold onVoiceStateChange.
    repeat case_if;
      simpl; intros [= <- _]; unfold single_flight in *; simpl; tauto.
  - destruct (loading sys) as [|track rest] eqn:Hld; [by intros [= <- _]|].
    assert (rest = []) as ->.
    { destruct Hsf as [Hn | [_ [t Ht]]]; congruence. }
    pose proof (processQueue_settle_outcome fuel (createAudioResource track)
                  (sub sys)) as H.
    destruct (processQueue_settle _ _ _); simpl; [| |done];
      intros [= <- _]; unfold single_flight; simpl; eauto.
  - destruct (waiting sys) as [|w rest]; [by intros [= <- _]|].
    destruct w, resolved; simpl;
      try (destruct (negb _); simpl);
      intros [= <- _]; unfold single_flight in *; simpl; tauto.
Qed.

(** ** Stopping (C2) *)

(** What [stop] leaves behind, whatever was queued. *)
Lemma stop_effect s :
  exists s',
    stop s = (s', [PlayerStop true]) /\
    queue s' = [] /\ queueLock s' = true /\ audioPlayer s' = IdleState.
Proof. eexists. repeat split. Qed.

(** While the lock is set and no invocation of [processQueue] is suspended,
    no event releases the lock or starts playback. *)
Lemma dispatch_locked fuel ev sys :
  queueLock (sub sys) = true ->
  loading sys = [] ->
  exists sys' out,
    dispatch fuel ev sys = Ok sys' out /\
    queueLock (sub sys') = true /\ loading sys' = [] /\ played out = [].
Proof.
  intros Hl Hp. destruct sys as [s l w]. simpl in *. subst l.
  destruct ev as [t| | |o n|n| |resolved]; simpl.
  - unfold enqueue. rewrite processQueue_locked by done.
    simpl. eauto 10.
  - eauto 10.
  - rewrite processQueue_locked by done. simpl. eauto 10.
  - unfold onAudioPlayerStateChange.
    destruct (_ && _).
    + destruct (_ =? _)%nat; simpl; [eauto 10|].
      rewrite processQueue_locked by done. simpl. eauto 10.
    + destruct n; simpl; eauto 10.
  - unfold onVoiceStateChange.
    repeat (case_if; simpl; eauto 10).
  - eauto 10.
  - destruct w as [|[] w]; simpl; [eauto 10| | |].
    + destruct resolved; simpl; eauto 10.
    + eauto 10.
    + destruct resolved; simpl; [eauto 10|].
      destruct (negb _); simpl; eauto 10.
Qed.

Lemma run_events_locked fuel evs :
  forall sys,
    queueLock (sub sys) = true ->
    loading sys = [] ->
    exists sys' out,
      run_events fuel evs sys = Ok sys' out /\
      queueLock (sub sys') = true /\ loading sys' = [] /\ played out = [].
Proof.
  induction evs as [|ev evs IH]; intros sys Hl Hp; simpl; [eauto 10|].
  destruct (dispatch_locked fuel ev sys Hl Hp) as (sys1 & out1 & -> & Hl1 & Hp1 & Ho1).
  destruct (IH sys1 Hl1 Hp1) as (sys2 & out2 & -> & Hl2 & Hp2 & Ho2).
  exists sys2, (out1 ++ out2). by rewrite played_app, Ho1, Ho2.
Qed.

(** After [stop], with no invocation of [processQueue] suspended, every
    later call of [processQueue] is a no-op and nothing is played again. *)
Lemma stop_is_final_when_nothing_is_loading fuel evs sys :
  loading sys = [] ->
  exists sys' out,
    run_events fuel (CallStop :: evs) sys = Ok sys' (PlayerStop true :: out) /\
    queueLock (sub sys') = true /\ played out = [] /\
    processQueue fuel (sub sys') = Returned (sub sys') [].
Proof.
  intros Hp. simpl.
  destruct (run_events_locked fuel evs
              {| sub := set_audioPlayer IdleState
                          (set_queue [] (set_queueLock true (sub sys)));
                 loading := loading sys; waiting := waiting sys |})
    as (sys' & out & -> & Hl & _ & Ho); [done..|].
  exists sys', out. repeat split; try done.
  by apply processQueue_locked.
Qed.

(** C2. The lock [stop] sets is released by an invocation of [processQueue]
    that was suspended when [stop] ran.  On a fresh subscription,
    [enqueue(A)] suspends at [createAudioResource]; [stop()] then leaves the
    queue empty, the player idle and the lock set; when the promise of [A]
    resolves, the suspended invocation plays [A] and clears the lock; after
    [A] has ended, [enqueue(B)] passes the guard and [B] is played. *)
Theorem stop_lock_released_by_suspended_processQueue :
  let A := Sample.good "A" in
  let B := Sample.good "B" in
  let stopped :=
    {| sub := set_queueLock true Sample.fresh_subscription;
       loading := [A]; waiting := [] |} in
  let resumed :=
    {| sub := playing (Sample.resource "A") [] Sample.fresh_subscription;
       loading := []; waiting := [] |} in
  let again :=
    {| sub := playing (Sample.resource "B") [] Sample.fresh_subscription;
       loading := []; waiting := [] |} in
  run_events 0 [CallEnqueue A; CallStop] Sample.fresh_sys
    = Ok stopped [PlayerStop true] /\
  queueLock (sub stopped) = true /\
  dispatch 0 TrackSettled stopped = Ok resumed [Play (Sample.resource "A")] /\
  queueLock (sub resumed) = false /\
  run_events 0
    [PlayerStateChange (PlayingState (Sample.resource "A")) IdleState;
     CallEnqueue B; TrackSettled] resumed
    = Ok again [Send queue_empty_text; Play (Sample.resource "B")].
Proof. repeat split. Qed.

(** ** Connection resilience (C7, C8, C9) *)

Lemma is_4014_close newState :
  (reason_is WebSocketClose (reason newState)
   && closeCode_is 4014 (closeCode newState)) = true <->
  reason newState = Some WebSocketClose /\ closeCode newState = Some 4014.
Proof.
  rewrite andb_true_iff. unfold reason_is, closeCode_is.
  destruct (reason newState) as [[]|], (closeCode newState) as [c|];
    split; intros [H1 H2]; try done.
  - apply Z.eqb_eq in H2. by subst.
  - injection H2 as ->. done.
Qed.

(** C7. On a [Disconnected] event with reason [WebSocketClose] and close
    code 4014 the listener waits up to 5 seconds for [Connecting] and does
    nothing else.  If the connection gets there in time, the listener ends
    without any further effect and leaves the subscription as it is; if the
    wait is rejected, it destroys the voice connection. *)
Theorem disconnected_4014_waits_for_connecting newState s :
  status newState = Disconnected ->
  reason newState = Some WebSocketClose ->
  closeCode newState = Some 4014 ->
  onVoiceStateChange newState s =
    VoiceSuspended s [EntersState Connecting 5000] AwaitConnecting /\
  (forall s', onVoiceStateChange_settle AwaitConnecting true s' = (s', [])) /\
  (forall s', onVoiceStateChange_settle AwaitConnecting false s' =
              voiceConnection_destroy s') /\
  voice_reaction true newState s = (s, [EntersState Connecting 5000]) /\
  (Destroy ∉ snd (voice_reaction true newState s)) /\
  snd (voice_reaction false newState s) = [EntersState Connecting 5000; Destroy].
Proof.
  intros Hs Hr Hc.
  assert (H : onVoiceStateChange newState s =
              VoiceSuspended s [EntersState Connecting 5000] AwaitConnecting).
  { unfold onVoiceStateChange. by rewrite Hs, Hr, Hc. }
  unfold voice_reaction. rewrite H. simpl.
  repeat split; try done.
  intros Hin. apply list_elem_of_singleton in Hin. discriminate.
Qed.

Lemma disconnected_4014_waits_for_connecting_witness :
  let newState := Sample.disconnected WebSocketClose (Some 4014) in
  let s := Sample.fresh_subscription in
  onVoiceStateChange newState s =
    VoiceSuspended s [EntersState Connecting 5000] AwaitConnecting /\
  (forall s', onVoiceStateChange_settle AwaitConnecting true s' = (s', [])) /\
  (forall s', onVoiceStateChange_settle AwaitConnecting false s' =
              voiceConnection_destroy s') /\
  voice_reaction true newState s = (s, [EntersState Connecting 5000]) /\
  (Destroy ∉ snd (voice_reaction true newState s)) /\
  snd (voice_reaction false newState s) = [EntersState Connecting 5000; Destroy].
Proof.
  apply (disconnected_4014_waits_for_connecting
           (Sample.disconnected WebSocketClose (Some 4014))
           Sample.fresh_subscription); reflexivity.
Defined.

Lemma not_4014_close newState :
  ~ (reason newState = Some WebSocketClose /\ closeCode newState = Some 4014) ->
  (reason_is WebSocketClose (reason newState)
   && closeCode_is 4014 (closeCode newState)) = false.
Proof.
  intros H. apply not_true_is_false. intros Hb. by apply H, is_4014_close.
Qed.

(** C8. On a [Disconnected] event that is not the 4014 close, with [n] the
    rejoin-attempt counter of the voice connection: if [n < 5] the listener
    waits [(n + 1) * 5000] milliseconds and then calls [rejoin]; if
    [5 <= n] it destroys the voice connection.  Six such events met with
    the counters 0 to 5 give five rejoins after 5, 10, 15, 20 and 25
    seconds, then a destroy. *)
Theorem disconnected_rejoins_with_backoff_or_destroys newState s resolved :
  status newState = Disconnected ->
  ~ (reason newState = Some WebSocketClose /\ closeCode newState = Some 4014) ->
  let n := rejoinAttempts (voiceConnection s) in
  let with_attempts (k : Z) :=
    set_voiceConnection {| vc_status := Disconnected; rejoinAttempts := k |} s in
  (n < 5 ->
   onVoiceStateChange newState s =
     VoiceSuspended s [Wait ((n + 1) * 5000)] AwaitBackoff /\
   onVoiceStateChange_settle AwaitBackoff resolved s = (s, [Rejoin]) /\
   voice_reaction resolved newState s = (s, [Wait ((n + 1) * 5000); Rejoin])) /\
  (5 <= n ->
   onVoiceStateChange newState s =
     VoiceDone (fst (voiceConnection_destroy s)) [Destroy]) /\
  (fun k => snd (voice_reaction resolved newState (with_attempts k)))
    <$> [0; 1; 2; 3; 4; 5] =
  [ [Wait 5000; Rejoin]; [Wait 10000; Rejoin]; [Wait 15000; Rejoin];
    [Wait 20000; Rejoin]; [Wait 25000; Rejoin]; [Destroy] ].
Proof.
  intros Hs Hn n with_attempts. apply not_4014_close in Hn.
  split; [|split].
  - intros Hlt. apply Z.ltb_lt in Hlt.
    assert (H : onVoiceStateChange newState s =
                VoiceSuspended s [Wait ((n + 1) * 5000)] AwaitBackoff).
    { unfold onVoiceStateChange. by rewrite Hs, Hn; simpl; fold n; rewrite Hlt. }
    unfold voice_reaction. by rewrite H.
  - intros Hge. apply Z.ltb_ge in Hge.
    unfold onVoiceStateChange. by rewrite Hs, Hn; simpl; fold n; rewrite Hge.
  - unfold voice_reaction, onVoiceStateChange. rewrite Hs, Hn. reflexivity.
Qed.

Lemma disconnected_rejoins_with_backoff_or_destroys_witness :
  let newState := Sample.disconnected WebSocketClose (Some 1006) in
  let s := set_voiceConnection {| vc_status := Disconnected; rejoinAttempts := 2 |}
             Sample.fresh_subscription in
  let with_attempts (k : Z) :=
    set_voiceConnection {| vc_status := Disconnected; rejoinAttempts := k |} s in
  (2 < 5 ->
   onVoiceStateChange newState s =
     VoiceSuspended s [Wait ((2 + 1) * 5000)] AwaitBackoff /\
   onVoiceStateChange_settle AwaitBackoff true s = (s, [Rejoin]) /\
   voice_reaction true newState s = (s, [Wait ((2 + 1) * 5000); Rejoin])) /\
  (5 <= 2 ->
   onVoiceStateChange newState s =
     VoiceDone (fst (voiceConnection_destroy s)) [Destroy]) /\
  (fun k => snd (voice_reaction true newState (with_attempts k)))
    <$> [0; 1; 2; 3; 4; 5] =
  [ [Wait 5000; Rejoin]; [Wait 10000; Rejoin]; [Wait 15000; Rejoin];
    [Wait 20000; Rejoin]; [Wait 25000; Rejoin]; [Destroy] ].
Proof.
  apply (disconnected_rejoins_with_backoff_or_destroys
           (Sample.disconnected WebSocketClose (Some 1006))
           (set_voiceConnection
              {| vc_status := Disconnected; rejoinAttempts := 2 |}
              Sample.fresh_subscription)
           true).
  - reflexivity.
  - simpl. intros [_ H]. discriminate H.
Defined.

(** C9. On a [Signalling] or [Connecting] event met with the ready-wait
    lock clear, the listener sets the lock and waits up to 20 seconds for
    [Ready].  However the wait ends, the lock is clear afterwards; a
    resolved wait has no further effect; a rejected wait destroys the voice
    connection, unless its status is [Destroyed] by then. *)
Theorem ready_wait_is_locked_bounded_and_released newState s :
  readyLock s = false ->
  status newState = Signalling \/ status newState = Connecting ->
  onVoiceStateChange newState s =
    VoiceSuspended (set_readyLock true s) [EntersState Ready 20000] AwaitReady /\
  readyLock (set_readyLock true s) = true /\
  (forall resolved s',
     readyLock (fst (onVoiceStateChange_settle AwaitReady resolved s')) = false) /\
  (forall s',
     onVoiceStateChange_settle AwaitReady true s' = (set_readyLock false s', [])) /\
  (forall s',
     vc_status (voiceConnection s') <> Destroyed ->
     onVoiceStateChange_settle AwaitReady false s' =
       (set_readyLock false (fst (voiceConnection_destroy s')), [Destroy])) /\
  (forall s',
     vc_status (voiceConnection s') = Destroyed ->
     onVoiceStateChange_settle AwaitReady false s' = (set_readyLock false s', [])).
Proof.
  intros Hl Hs. repeat split.
  - unfold onVoiceStateChange. rewrite Hl. by destruct Hs as [-> | ->].
  - intros resolved s'. simpl.
    destruct resolved; [done|]. by destruct (negb _).
  - intros s' Hd. simpl.
    by destruct (vc_status (voiceConnection s')).
  - intros s' Hd. simpl. by rewrite Hd.
Qed.

Lemma ready_wait_is_locked_bounded_and_released_witness :
  let newState := Sample.entered Connecting in
  let s := Sample.fresh_subscription in
  onVoiceStateChange newState s =
    VoiceSuspended (set_readyLock true s) [EntersState Ready 20000] AwaitReady /\
  readyLock (set_readyLock true s) = true /\
  (forall resolved s',
     readyLock (fst (onVoiceStateChange_settle AwaitReady resolved s')) = false) /\
  (forall s',
     onVoiceStateChange_settle AwaitReady true s' = (set_readyLock false s', [])) /\
  (forall s',
     vc_status (voiceConnection s') <> Destroyed ->
     onVoiceStateChange_settle AwaitReady false s' =
       (set_readyLock false (fst (voiceConnection_destroy s')), [Destroy])) /\
  (forall s',
     vc_status (voiceConnection s') = Destroyed ->
     onVoiceStateChange_settle AwaitReady false s' = (set_readyLock false s', [])).
Proof.
  apply (ready_wait_is_locked_bounded_and_released
           (Sample.entered Connecting) Sample.fresh_subscription).
  - reflexivity.
  - right. reflexivity.
Defined.

(** ** The registry (C6, C10) *)

(** No event delivered to a subscription touches the registry. *)
Lemma deliver_keeps_registry fuel ref ev w w' out :
  deliver fuel ref ev w = Some (w', out) ->
  subscriptions w' = subscriptions w.
Proof.
  unfold deliver. destruct (heap w !! ref) as [sys|]; [|done].
  destruct (dispatch fuel ev sys); [|done].
  by intros [= <- _].
Qed.

(** C6, as the code has it.  When the voice connection of a registered
    subscription enters [Destroyed], the listener runs [stop]: the queue is
    emptied, the queue lock set, the player force-stopped.  The registry is
    left as it was: every guild keeps the entry it had, the one of this
    subscription included. *)
Theorem destroyed_stops_subscription_and_keeps_registry
    fuel ref guild newState w sys :
  heap w !! ref = Some sys ->
  subscriptions w !! guild = Some ref ->
  status newState = Destroyed ->
  exists w' sys',
    deliver fuel ref (VoiceStateChange newState) w = Some (w', [PlayerStop true]) /\
    heap w' !! ref = Some sys' /\
    queue (sub sys') = [] /\
    queueLock (sub sys') = true /\
    audioPlayer (sub sys') = IdleState /\
    subscriptions w' = subscriptions w /\
    subscriptions w' !! guild = Some ref.
Proof.
  intros Hh Hr Hs. unfold deliver. rewrite Hh. simpl.
  unfold onVoiceStateChange. rewrite Hs. simpl.
  eexists _, _. split; [reflexivity|]. simpl.
  split; [apply lookup_insert_eq|]. by repeat split.
Qed.

Lemma destroyed_stops_subscription_and_keeps_registry_witness :
  exists w' sys',
    deliver 0 0 (VoiceStateChange (Sample.entered Destroyed)) Sample.joined_world
      = Some (w', [PlayerStop true]) /\
    heap w' !! 0%nat = Some sys' /\
    queue (sub sys') = [] /\
    queueLock (sub sys') = true /\
    audioPlayer (sub sys') = IdleState /\
    subscriptions w' = subscriptions Sample.joined_world /\
    subscriptions w' !! "guild" = Some 0%nat.
Proof.
  apply (destroyed_stops_subscription_and_keeps_registry
           0 0 "guild" (Sample.entered Destroyed) Sample.joined_world
           Sample.fresh_sys); reflexivity.
Defined.

(** C6, as stated, fails: the subscription registered for ["guild"] gets the
    [Destroyed] event, [stop] runs, and the registry still maps ["guild"]
    to it. *)
Lemma destroyed_leaves_registry_entry :
  exists w',
    deliver 0 0 (VoiceStateChange (Sample.entered Destroyed)) Sample.joined_world
      = Some (w', [PlayerStop true]) /\
    subscriptions Sample.joined_world !! "guild" = Some 0%nat /\
    subscriptions w' !! "guild" = Some 0%nat /\
    subscriptions w' !! "guild" <> None.
Proof. eexists. by repeat split. Qed.

(** C10. When the caller is in a voice channel and no subscription is
    supplied, the bootstrap creates one, stores it in the registry under
    the guild of the interaction, and waits up to 20 seconds for [Ready].
    If that wait is rejected, it logs the error, tells the caller that the
    channel could not be joined within 20 seconds and returns no
    subscription; it leaves the world as it finds it when it resumes, so
    the run ends in the world where the new entry is registered. *)
Theorem join_timeout_reports_and_keeps_registry_entry
    conn interaction voiceChannel err w :
  member_voice_channel interaction = Some voiceChannel ->
  exists ref w1,
    joinVCAndCreateSubscription conn None interaction w =
      JoinSuspended w1 [EntersState Ready 20000] ref /\
    heap w !! ref = None /\
    heap w1 !! ref =
      Some {| sub := new_MusicSubscription conn (channel_id voiceChannel)
                       (channelId interaction);
              loading := []; waiting := [] |} /\
    subscriptions w1 !! guildId interaction = Some ref /\
    (forall w2, joinVCAndCreateSubscription_settle (inr err) ref w2 =
                (w2, [Warn err; FollowUp join_timeout_text], None)) /\
    joinVCAndCreateSubscription_run conn (inr err) None interaction w =
      (w1, [EntersState Ready 20000; Warn err; FollowUp join_timeout_text], None).
Proof.
  intros Hm.
  exists (fresh (dom (heap w))).
  unfold joinVCAndCreateSubscription_run, joinVCAndCreateSubscription.
  rewrite Hm. simpl.
  eexists. repeat split.
  - apply not_elem_of_dom, is_fresh.
  - apply lookup_insert_eq.
  - apply lookup_insert_eq.
Qed.

Lemma join_timeout_reports_and_keeps_registry_entry_witness :
  let err := {| message := "The operation was aborted" |} in
  let conn := Sample.connection 0 in
  exists ref w1,
    joinVCAndCreateSubscription conn None Sample.interaction Sample.empty_world =
      JoinSuspended w1 [EntersState Ready 20000] ref /\
    heap Sample.empty_world !! ref = None /\
    heap w1 !! ref =
      Some {| sub := new_MusicSubscription conn "voice" "text";
              loading := []; waiting := [] |} /\
    subscriptions w1 !! "guild" = Some ref /\
    (forall w2, joinVCAndCreateSubscription_settle (inr err) ref w2 =
                (w2, [Warn err; FollowUp join_timeout_text], None)) /\
    joinVCAndCreateSubscription_run conn (inr err) None Sample.interaction
      Sample.empty_world =
      (w1, [EntersState Ready 20000; Warn err; FollowUp join_timeout_text], None).
Proof.
  apply (join_timeout_reports_and_keeps_registry_entry
           (Sample.connection 0) Sample.interaction
           {| channel_id := "voice"; channel_guildId := "guild";
              channel_name := "General" |}
           {| message := "The operation was aborted" |}
           Sample.empty_world).
  reflexivity.
Defined.

(** * Further properties *)

(** ** When a run of [processQueue] returns *)

(** A queue either has a first track that materializes, behind tracks that
    all fail, or consists of failing tracks only. *)
Lemma queue_first_playable (l : list Track) :
  (exists failing errors track resource rest,
     l = failing ++ track :: rest /\
     failure <$> failing = Some <$> errors /\
     createAudioResource track = inl resource) \/
  (exists errors, failure <$> l = Some <$> errors).
Proof.
  induction l as [|t l IH].
  - right. by exists [].
  - destruct (createAudioResource t) as [r|e] eqn:Ht.
    + left. by exists [], [], t, r, l.
    + destruct IH as [(failing & errors & track & r & rest & -> & Hf & Hr)
                     | [errors Hf]].
      * left. exists (t :: failing), (e :: errors), track, r, rest.
        repeat split; [|done]. rewrite !fmap_cons, Hf.
        unfold failure at 1. by rewrite Ht.
      * right. exists (e :: errors). rewrite !fmap_cons, Hf.
        unfold failure at 1. by rewrite Ht.
Qed.

(** Started past its guard and left alone while it waits, [processQueue]
    returns, given enough fuel, exactly when some queued track
    materializes. *)
Theorem processQueue_run_returns_iff_some_track_materializes s :
  processQueue_guard s = false ->
  (exists fuel s' out, processQueue_run fuel s = Returned s' out) <->
  (exists track, track ∈ queue s /\ failure track = None).
Proof.
  intros Hg. unfold processQueue_run.
  destruct (queue_first_playable (queue s))
    as [(failing & errors & track & r & rest & Hq & Hf & Hr) | [errors Hf]].
  - split; intros _.
    + exists track. split.
      * rewrite Hq. apply elem_of_app. right. apply list_elem_of_here.
      * unfold failure. by rewrite Hr.
    + exists (S (length failing)), (playing r rest s). eexists.
      rewrite <- (after_nil (processQueue _ s)).
      apply (settle_all_skips_failures failing _ _ s [] errors track r rest);
        try done. lia.
  - split.
    + intros (fuel & s' & out & Hret). exfalso.
      rewrite <- (after_nil (processQueue fuel s)) in Hret.
      by apply (settle_all_never_returns_when_all_fail
                  (queue s) fuel fuel s [] errors Hg eq_refl Hf s' out).
    + intros (track & Hin & Hnone). exfalso.
      apply list_elem_of_lookup in Hin as [i Hi].
      assert (H : (failure <$> queue s) !! i = Some None).
      { by rewrite list_lookup_fmap, Hi; simpl; rewrite Hnone. }
      rewrite Hf, list_lookup_fmap in H.
      by destruct (errors !! i).
Qed.

Lemma processQueue_run_returns_iff_some_track_materializes_witness :
  let s := set_queue [Sample.broken "X" "gone"; Sample.good "A"]
             Sample.fresh_subscription in
  (exists fuel s' out, processQueue_run fuel s = Returned s' out) <->
  (exists track, track ∈ queue s /\ failure track = None).
Proof.
  apply (processQueue_run_returns_iff_some_track_materializes
           (set_queue [Sample.broken "X" "gone"; Sample.good "A"]
              Sample.fresh_subscription)).
  reflexivity.
Defined.

(** ** Tracks are played in the order they were enqueued *)

Lemma run_events_app fuel evs evs' sys :
  run_events fuel (evs ++ evs') sys =
    match run_events fuel evs sys with
    | Ok sys1 out =>
        match run_events fuel evs' sys1 with
        | Ok sys2 out' => Ok sys2 (out ++ out')
        | Diverged sys2 out' => Diverged sys2 (out ++ out')
        end
    | Diverged sys1 out => Diverged sys1 out
    end.
Proof.
  revert sys. induction evs as [|ev evs IH]; intros sys; simpl.
  - by destruct (run_events fuel evs' sys).
  - destruct (dispatch fuel ev sys) as [sys1 out1|]; [|done].
    rewrite IH. destruct (run_events fuel evs sys1) as [sys2 out2|]; [|done].
    destruct (run_events fuel evs' sys2); by rewrite app_assoc.
Qed.

(** While the lock is held, [enqueue] only appends to the queue. *)
Lemma enqueue_all_locked fuel tracks :
  forall sys,
    queueLock (sub sys) = true ->
    exists sys',
      run_events fuel (CallEnqueue <$> tracks) sys = Ok sys' [] /\
      queue (sub sys') = queue (sub sys) ++ tracks /\
      queueLock (sub sys') = true /\
      audioPlayer (sub sys') = audioPlayer (sub sys) /\
      loading sys' = loading sys.
Proof.
  induction tracks as [|t tracks IH]; intros sys Hl.
  - exists sys. by rewrite app_nil_r.
  - rewrite fmap_cons. simpl. unfold enqueue.
    rewrite processQueue_locked by done. simpl.
    destruct (IH {| sub := set_queue (queue (sub sys) ++ [t]) (sub sys);
                    loading := loading sys; waiting := waiting sys |})
      as (sys' & -> & Hq & Hl' & Hp & Hld); [done|].
    exists sys'. simpl in *. by rewrite Hq, <- app_assoc.
Qed.

(** The first [enqueue] on an idle, unlocked subscription with nothing
    queued takes the lock and starts loading its track; those that follow
    queue up behind it. *)
Lemma enqueue_all_idle fuel track tracks sys :
  processQueue_guard (sub sys) = false ->
  queue (sub sys) = [] ->
  loading sys = [] ->
  exists sys',
    run_events fuel (CallEnqueue <$> (track :: tracks)) sys = Ok sys' [] /\
    queue (sub sys') = tracks /\
    queueLock (sub sys') = true /\
    audioPlayer (sub sys') = IdleState /\
    loading sys' = [track].
Proof.
  intros Hg Hq Hld. rewrite fmap_cons. simpl. unfold enqueue.
  apply guard_open in Hg as [Hl Hp].
  rewrite (processQueue_head _ _ track []);
    [|by apply guard_open_iff|by simpl; rewrite Hq].
  simpl.
  destruct (enqueue_all_locked fuel tracks
              {| sub := set_queue [] (set_queueLock true
                                        (set_queue (queue (sub sys) ++ [track])
                                           (sub sys)));
                 loading := loading sys ++ [track]; waiting := waiting sys |})
    as (sys' & -> & Hq' & Hl' & Hp' & Hld'); [done|].
  exists sys'. simpl in *. rewrite Hld in Hld'. rewrite Hp in Hp'. done.
Qed.

(** One track played to its end, with nothing queued behind it: the
    queue-empty notice follows. *)
Lemma plays_through_last fuel track resource sys :
  createAudioResource track = inl resource ->
  loading sys = [track] ->
  queue (sub sys) = [] ->
  exists sys',
    run_events fuel (plays_through resource) sys =
      Ok sys' [Play resource; Send (now_playing_text (metadata_title resource));
               Send queue_empty_text] /\
    queue (sub sys') = [] /\
    queueLock (sub sys') = false /\
    audioPlayer (sub sys') = IdleState /\
    loading sys' = [].
Proof.
  intros Hr Hld Hq. destruct sys as [[] l w]. simpl in Hld, Hq. subst.
  simpl. rewrite Hr. simpl. eexists. by repeat split.
Qed.

(** One track played to its end, with another queued behind it: that one
    starts loading. *)
Lemma plays_through_next fuel track resource next rest sys :
  createAudioResource track = inl resource ->
  loading sys = [track] ->
  queue (sub sys) = next :: rest ->
  exists sys',
    run_events fuel (plays_through resource) sys =
      Ok sys' [Play resource; Send (now_playing_text (metadata_title resource))] /\
    loading sys' = [next] /\
    queue (sub sys') = rest.
Proof.
  intros Hr Hld Hq. destruct sys as [[] l w]. simpl in Hld, Hq. subst.
  simpl. rewrite Hr. simpl. unfold onAudioPlayerStateChange. simpl.
  rewrite (processQueue_head _ _ next rest) by done. simpl.
  eexists. by repeat split.
Qed.

(** With a track loading and materializable tracks queued behind it, each
    track is played when the one before it has ended; when the last has
    ended the queue-empty notice is sent. *)
Lemma plays_through_all fuel resources :
  forall track resource tracks sys,
    createAudioResource track = inl resource ->
    createAudioResource <$> tracks = inl <$> resources ->
    loading sys = [track] ->
    queue (sub sys) = tracks ->
    exists sys' out,
      run_events fuel (concat (plays_through <$> (resource :: resources))) sys
        = Ok sys' out /\
      played out = resource :: resources /\
      notifications out =
        (now_playing_text ∘ metadata_title <$> (resource :: resources))
        ++ [queue_empty_text] /\
      queue (sub sys') = [] /\
      queueLock (sub sys') = false /\
      audioPlayer (sub sys') = IdleState /\
      loading sys' = [].
Proof.
  induction resources as [|r' resources IH];
    intros track resource tracks sys Hr Hrs Hld Hq;
    rewrite (fmap_cons _ resource), concat_cons, run_events_app.
  - destruct tracks; [|done].
    destruct (plays_through_last fuel track resource sys Hr Hld Hq)
      as (sys' & -> & Hfin).
    simpl. eexists _, _. split; [reflexivity|].
    split; [reflexivity|]. split; [reflexivity|]. exact Hfin.
  - destruct tracks as [|track' tracks]; [done|].
    rewrite !fmap_cons in Hrs. injection Hrs as Hr' Hrs.
    destruct (plays_through_next fuel track resource track' tracks sys Hr Hld Hq)
      as (sys1 & -> & Hld1 & Hq1).
    destruct (IH track' r' tracks sys1 Hr' Hrs Hld1 Hq1)
      as (sys' & out & -> & Hpl & Hn & Hfin).
    eexists _, _. split; [reflexivity|].
    rewrite played_app, notifications_app, Hpl, Hn.
    split; [reflexivity|]. split; [reflexivity|]. exact Hfin.
Qed.

(** Tracks that all materialize, enqueued on an idle, unlocked subscription
    with nothing queued and each left to play to its end, are played in
    the order of the [enqueue] calls, each announced once it plays; after
    the last of them the queue-empty notice is sent and the subscription is
    idle, unlocked and empty again. *)
Theorem enqueued_tracks_play_in_order fuel track tracks resource resources sys :
  processQueue_guard (sub sys) = false ->
  queue (sub sys) = [] ->
  loading sys = [] ->
  createAudioResource <$> (track :: tracks) = inl <$> (resource :: resources) ->
  exists sys' out,
    run_events fuel
      ((CallEnqueue <$> (track :: tracks))
       ++ concat (plays_through <$> (resource :: resources))) sys
      = Ok sys' out /\
    played out = resource :: resources /\
    notifications out =
      (now_playing_text ∘ metadata_title <$> (resource :: resources))
      ++ [queue_empty_text] /\
    queue (sub sys') = [] /\
    queueLock (sub sys') = false /\
    audioPlayer (sub sys') = IdleState /\
    loading sys' = [].
Proof.
  intros Hg Hq Hld Hrs. rewrite !fmap_cons in Hrs. injection Hrs as Hr Hrs.
  rewrite run_events_app.
  destruct (enqueue_all_idle fuel track tracks sys Hg Hq Hld)
    as (sys1 & -> & Hq1 & Hl1 & Hp1 & Hld1).
  destruct (plays_through_all fuel resources track resource tracks sys1
              Hr Hrs Hld1 Hq1) as (sys' & out & -> & H).
  by exists sys', out.
Qed.

Lemma enqueued_tracks_play_in_order_witness :
  exists sys' out,
    run_events 0
      ((CallEnqueue <$> [Sample.good "A"; Sample.good "B"; Sample.good "C"])
       ++ concat (plays_through <$>
                    [Sample.resource "A"; Sample.resource "B"; Sample.resource "C"]))
      Sample.fresh_sys
      = Ok sys' out /\
    played out = [Sample.resource "A"; Sample.resource "B"; Sample.resource "C"] /\
    notifications out =
      (now_playing_text ∘ metadata_title <$>
         [Sample.resource "A"; Sample.resource "B"; Sample.resource "C"])
      ++ [queue_empty_text] /\
    queue (sub sys') = [] /\
    queueLock (sub sys') = false /\
    audioPlayer (sub sys') = IdleState /\
    loading sys' = [].
Proof.
  apply (enqueued_tracks_play_in_order 0
           (Sample.good "A") [Sample.good "B"; Sample.good "C"]
           (Sample.resource "A") [Sample.resource "B"; Sample.resource "C"]
           Sample.fresh_sys); reflexivity.
Defined.

(** ** After [stop] *)

Lemma stop_is_final_when_nothing_is_loading_witness :
  let sys :=
    {| sub := set_audioPlayer (PlayingState (Sample.resource "A"))
                (set_queue [Sample.good "B"] Sample.fresh_subscription);
       loading := []; waiting := [] |} in
  let evs :=
    [PlayerStateChange (PlayingState (Sample.resource "A")) IdleState;
     CallEnqueue (Sample.good "C"); CallProcessQueue; TrackSettled] in
  exists sys' out,
    run_events 2 (CallStop :: evs) sys = Ok sys' (PlayerStop true :: out) /\
    queueLock (sub sys') = true /\ played out = [] /\
    processQueue 2 (sub sys') = Returned (sub sys') [].
Proof.
  apply (stop_is_final_when_nothing_is_loading 2
           [PlayerStateChange (PlayingState (Sample.resource "A")) IdleState;
            CallEnqueue (Sample.good "C"); CallProcessQueue; TrackSettled]
           {| sub := set_audioPlayer (PlayingState (Sample.resource "A"))
                       (set_queue [Sample.good "B"] Sample.fresh_subscription);
              loading := []; waiting := [] |}).
  reflexivity.
Defined.

(** ** The queue lock over a whole history *)

(** Whatever the events, at most one invocation of [processQueue] is
    suspended at a time, and the queue lock is set while one is. *)
Theorem at_most_one_processQueue_in_flight fuel evs :
  forall sys sys' out,
    single_flight sys ->
    run_events fuel evs sys = Ok sys' out ->
    (length (loading sys') <= 1)%nat /\
    (loading sys' <> [] -> queueLock (sub sys') = true).
Proof.
  assert (H : forall sys sys' out,
             single_flight sys -> run_events fuel evs sys = Ok sys' out ->
             single_flight sys').
  { induction evs as [|ev evs IH]; intros sys sys' out Hsf; simpl.
    - by intros [= <- _].
    - destruct (dispatch fuel ev sys) as [sys1 out1|] eqn:Hd; [|done].
      destruct (run_events fuel evs sys1) as [sys2 out2|] eqn:Hr; [|done].
      intros [= <- _].
      eapply IH; [|exact Hr]. by eapply dispatch_single_flight. }
  intros sys sys' out Hsf Hrun.
  destruct (H sys sys' out Hsf Hrun) as [-> | [Hl [t ->]]]; simpl.
  - split; [lia|done].
  - split; [lia|done].
Qed.

Lemma at_most_one_processQueue_in_flight_witness :
  let sys' :=
    {| sub := set_queueLock true Sample.fresh_subscription;
       loading := [Sample.good "A"]; waiting := [] |} in
  (length (loading sys') <= 1)%nat /\
  (loading sys' <> [] -> queueLock (sub sys') = true).
Proof.
  apply (at_most_one_processQueue_in_flight 1
           [CallEnqueue (Sample.good "A"); CallEnqueue (Sample.good "B");
            CallStop]
           Sample.fresh_sys
           {| sub := set_queueLock true Sample.fresh_subscription;
              loading := [Sample.good "A"]; waiting := [] |}
           [PlayerStop true]).
  - left. reflexivity.
  - reflexivity.
Defined.

(** ** The ready-wait lock over a whole history *)

Lemma processQueue_keeps_readyLock fuel s :
  match processQueue fuel s with
  | Returned s' _ | Suspended s' _ _ => readyLock s' = readyLock s
  | OutOfFuel _ _ => True
  end.
Proof.
  destruct (processQueue_guard s) eqn:Hg.
  - by rewrite processQueue_guarded.
  - destruct (queue s) as [|track rest] eqn:Hq.
    + by rewrite processQueue_empty_recurses.
    + by rewrite (processQueue_head _ _ _ _ Hg Hq).
Qed.

Lemma processQueue_settle_keeps_readyLock fuel settled s :
  match processQueue_settle fuel settled s with
  | Returned s' _ | Suspended s' _ _ => readyLock s' = readyLock s
  | OutOfFuel _ _ => True
  end.
Proof.
  destruct settled as [resource|error]; simpl; [done|].
  unfold processQueue_catch.
  pose proof (processQueue_keeps_readyLock fuel (set_queueLock false s)) as H.
  by destruct (processQueue fuel (set_queueLock false s)).
Qed.

Lemma of_outcome_one_ready_wait sys s o sys' out :
  one_ready_wait sys ->
  readyLock s = readyLock (sub sys) ->
  match o with
  | Returned s' _ | Suspended s' _ _ => readyLock s' = readyLock s
  | OutOfFuel _ _ => True
  end ->
  of_outcome {| sub := s; loading := loading sys; waiting := waiting sys |} o
    = Ok sys' out ->
  one_ready_wait sys'.
Proof.
  unfold one_ready_wait, ready_waits. intros Hinv Hs Ho.
  destruct o; simpl; [| |done]; intros [= <- _]; simpl;
    by rewrite Ho, Hs.
Qed.

Lemma ready_waits_snoc ws w :
  length (List.filter is_AwaitReady (ws ++ [w])) =
    (length (List.filter is_AwaitReady ws)
     + if is_AwaitReady w then 1 else 0)%nat.
Proof.
  rewrite List.filter_app, length_app. simpl. by destruct (is_AwaitReady w).
Qed.

Lemma dispatch_one_ready_wait fuel ev sys sys' out :
  one_ready_wait sys ->
  dispatch fuel ev sys = Ok sys' out ->
  one_ready_wait sys'.
Proof.
  intros Hinv. destruct ev as [t| | |o n|n| |resolved]; simpl.
  - apply (of_outcome_one_ready_wait sys (sub sys)); [done|done|].
    apply (processQueue_keeps_readyLock fuel
             (set_queue (queue (sub sys) ++ [t]) (sub sys))).
  - by intros [= <- _].
  - apply (of_outcome_one_ready_wait sys (sub sys)); [done|done|].
    apply processQueue_keeps_readyLock.
  - apply (of_outcome_one_ready_wait sys (set_audioPlayer n (sub sys)));
      [done|done|].
    unfold onAudioPlayerStateChange. destruct (_ && _).
    + destruct (_ =? _)%nat; [done|]. apply processQueue_keeps_readyLock.
    + by destruct n.
  - unfold one_ready_wait, ready_waits in *. unfold onVoiceStateChange.
    destruct (readyLock (sub sys)) eqn:Hr; simpl; rewrite ?Hr;
      destruct (status n); simpl;
      try (destruct (reason_is _ _ && closeCode_is _ _);
           [|destruct (_ <? _)]);
      simpl; intros [= <- _]; simpl;
      rewrite ?ready_waits_snoc, ?Hr, ?Hinv; simpl; done || lia.
  - destruct (loading sys) as [|track rest]; [by intros [= <- _]|].
    pose proof (processQueue_settle_keeps_readyLock fuel
                  (createAudioResource track) (sub sys)) as H.
    unfold one_ready_wait, ready_waits in *.
    destruct (processQueue_settle _ _ _); simpl; [| |done];
      intros [= <- _]; simpl; by rewrite H.
  - unfold one_ready_wait, ready_waits in *.
    destruct (waiting sys) as [|w rest] eqn:Hw.
    { intros [= <- _]. by rewrite Hw. }
    destruct w, resolved; simpl in *;
      try (destruct (negb _); simpl);
      intros [= <- _]; simpl; try done;
      destruct (readyLock (sub sys)); simpl in *; lia.
Qed.

Lemma ready_waits_delete ws :
  forall i w,
    ws !! i = Some w ->
    length (List.filter is_AwaitReady ws) =
      (length (List.filter is_AwaitReady (delete i ws))
       + if is_AwaitReady w then 1 else 0)%nat.
Proof.
  induction ws as [|w' ws IH]; intros i w Hi; [done|].
  destruct i as [|i]; simpl in *.
  - injection Hi as ->. destruct (is_AwaitReady w); simpl; lia.
  - pose proof (IH i w Hi) as H.
    destruct (is_AwaitReady w'); simpl; lia.
Qed.

Lemma settle_voice_at_one_ready_wait i resolved sys sys' out :
  one_ready_wait sys ->
  settle_voice_at i resolved sys = Ok sys' out ->
  one_ready_wait sys'.
Proof.
  unfold one_ready_wait, ready_waits, settle_voice_at. intros Hinv.
  destruct (waiting sys !! i) as [w|] eqn:Hi; [|by intros [= <- _]].
  rewrite (ready_waits_delete _ i w Hi) in Hinv.
  destruct w, resolved; simpl in *;
    try (destruct (negb _); simpl);
    intros [= <- _]; simpl;
    destruct (readyLock (sub sys)); simpl in *; lia.
Qed.

(** Whatever the events and in whatever order the waits settle, the
    ready-wait lock is set exactly while a wait for [Ready] of the voice
    listener is pending, and at most one is: a [Signalling] or [Connecting]
    event met during such a wait starts no second one. *)
Theorem at_most_one_ready_wait fuel os :
  forall sys sys' out,
    one_ready_wait sys ->
    run_occurrences fuel os sys = Ok sys' out ->
    (ready_waits sys' <= 1)%nat /\
    (readyLock (sub sys') = true <-> ready_waits sys' = 1%nat).
Proof.
  assert (H : forall sys sys' out,
             one_ready_wait sys -> run_occurrences fuel os sys = Ok sys' out ->
             one_ready_wait sys').
  { induction os as [|o os IH]; intros sys sys' out Hinv; simpl.
    - by intros [= <- _].
    - destruct (occur fuel o sys) as [sys1 out1|] eqn:Hd; [|done].
      destruct (run_occurrences fuel os sys1) as [sys2 out2|] eqn:Hr; [|done].
      intros [= <- _].
      eapply IH; [|exact Hr]. destruct o as [ev|i resolved]; simpl in Hd.
      + by eapply dispatch_one_ready_wait.
      + by eapply settle_voice_at_one_ready_wait. }
  intros sys sys' out Hinv Hrun.
  pose proof (H sys sys' out Hinv Hrun) as Hfin.
  unfold one_ready_wait in Hfin. rewrite Hfin.
  destruct (readyLock (sub sys')); split; try lia; split; done.
Qed.

Lemma at_most_one_ready_wait_witness :
  let sys' :=
    {| sub := set_voiceConnection
                {| vc_status := Connecting; rejoinAttempts := 0 |}
                (set_readyLock true Sample.fresh_subscription);
       loading := []; waiting := [AwaitConnecting; AwaitReady] |} in
  (ready_waits sys' <= 1)%nat /\
  (readyLock (sub sys') = true <-> ready_waits sys' = 1%nat).
Proof.
  apply (at_most_one_ready_wait 0
           [Occurs (VoiceStateChange (Sample.entered Signalling));
            Occurs (VoiceStateChange
                      (Sample.disconnected WebSocketClose (Some 4014)));
            Occurs (VoiceStateChange (Sample.entered Connecting));
            VoiceSettledAt 0 true;
            Occurs (VoiceStateChange
                      (Sample.disconnected WebSocketClose (Some 4014)));
            VoiceSettledAt 0 true;
            Occurs (VoiceStateChange (Sample.entered Connecting))]
           Sample.fresh_sys
           {| sub := set_voiceConnection
                       {| vc_status := Connecting; rejoinAttempts := 0 |}
                       (set_readyLock true Sample.fresh_subscription);
              loading := []; waiting := [AwaitConnecting; AwaitReady] |}
           [EntersState Ready 20000; EntersState Connecting 5000;
            EntersState Connecting 5000; EntersState Ready 20000]).
  - reflexivity.
  - reflexivity.
Defined.

(** ** Where the unbounded recursion is entered *)

Lemma processQueue_diverges_iff fuel s :
  (exists s' out, processQueue fuel s = OutOfFuel s' out) <->
  processQueue_guard s = false /\ queue s = [].
Proof.
  split.
  - intros (s' & out & H).
    destruct (processQueue_guard s) eqn:Hg.
    { by rewrite processQueue_guarded in H. }
    destruct (queue s) as [|track rest] eqn:Hq; [done|].
    by rewrite (processQueue_head _ _ _ _ Hg Hq) in H.
  - intros [Hg Hq]. rewrite processQueue_empty_recurses by done. eauto.
Qed.

Lemma of_outcome_diverges sys o :
  (exists sys' out, of_outcome sys o = Diverged sys' out) <->
  (exists s' out, o = OutOfFuel s' out).
Proof.
  destruct o; simpl; split; intros (x & y & H); try done; eauto.
Qed.

(** An event makes the subscription recurse without bound in exactly two
    situations, both on an empty queue with the player idle: a call of
    [processQueue] that finds the lock clear, and the failure of the track
    that was loading.  [enqueue], [stop], the listener of the audio player
    and the listener of the voice connection never do. *)
Theorem dispatch_diverges_iff fuel ev sys :
  (exists sys' out, dispatch fuel ev sys = Diverged sys' out) <->
  (ev = CallProcessQueue /\
   queueLock (sub sys) = false /\ audioPlayer (sub sys) = IdleState /\
   queue (sub sys) = []) \/
  (ev = TrackSettled /\
   exists track rest error,
     loading sys = track :: rest /\
     createAudioResource track = inr error /\
     audioPlayer (sub sys) = IdleState /\ queue (sub sys) = []).
Proof.
  destruct ev as [t| | |o n|n| |resolved]; simpl.
  - rewrite of_outcome_diverges. unfold enqueue.
    rewrite processQueue_diverges_iff. simpl. split.
    + intros [_ H]. by destruct (queue (sub sys)).
    + intros [[? _] | [? _]]; done.
  - split; [by intros (? & ? & ?)|]. intros [[? _] | [? _]]; done.
  - rewrite of_outcome_diverges, processQueue_diverges_iff, guard_open_iff.
    split; [intros [[? ?] ?]; by left|].
    intros [(_ & ? & ? & ?) | [? _]]; done.
  - rewrite of_outcome_diverges. split; [|intros [[? _] | [? _]]; done].
    unfold onAudioPlayerStateChange. intros (s' & out & H). exfalso.
    destruct (_ && _).
    + destruct (queue (set_audioPlayer n (sub sys))) as [|track rest] eqn:Hq;
        simpl in H; [done|].
      assert (Hd : exists s' out,
                 processQueue fuel (set_audioPlayer n (sub sys)) = OutOfFuel s' out)
        by eauto.
      apply processQueue_diverges_iff in Hd as [_ Hd]. congruence.
    + by destruct n.
  - split; [|intros [[? _] | [? _]]; done].
    intros (sys' & out & H). exfalso. revert H.
    by destruct (onVoiceStateChange _ _).
  - destruct (loading sys) as [|track rest] eqn:Hld.
    { split; [by intros (? & ? & ?)|].
      intros [[? _] | (_ & ? & ? & ? & ? & _)]; done. }
    rewrite of_outcome_diverges.
    destruct (createAudioResource track) as [resource|error] eqn:Hr; simpl.
    + split; [by intros (? & ? & ?)|].
      intros [[? _] | (_ & ? & ? & ? & [= <- _] & ? & _)]; congruence.
    + unfold processQueue_catch. split.
      * intros (s' & out & H). right. split; [done|].
        exists track, rest, error.
        assert (Hd : exists s' out,
                   processQueue fuel (set_queueLock false (sub sys))
                   = OutOfFuel s' out).
        { destruct (processQueue fuel (set_queueLock false (sub sys)));
            try done. eauto. }
        apply processQueue_diverges_iff in Hd as [Hg Hq].
        apply guard_open in Hg as [_ Hp]. by repeat split.
      * intros [[? _] | (_ & ? & ? & ? & _ & _ & Hp & Hq)]; [done|].
        rewrite processQueue_empty_recurses; [simpl; eauto| |done].
        by apply guard_open_iff.
  - split; [|intros [[? _] | [? _]]; done].
    intros (sys' & out & H). exfalso. revert H.
    destruct (waiting sys) as [|w rest]; [done|].
    by destruct (onVoiceStateChange_settle _ _ _).
Qed.

(** ** What the voice listener leaves alone, and how long it waits *)



(** Every wait the voice listener starts is bounded, whatever the event
    and the rejoin counter: at most 25 seconds of back-off before a rejoin,
    at most 20 seconds for a state to be entered. *)
Theorem voice_listener_waits_are_bounded newState s :
  Forall bounded_wait (voice_effects (onVoiceStateChange newState s)).
Proof.
  unfold onVoiceStateChange.
  destruct (VoiceConnectionStatus_eqb (status newState) Disconnected).
  - destruct (_ && _); [repeat constructor; simpl; lia|].
    destruct (rejoinAttempts (voiceConnection s) <? 5) eqn:Hlt.
    + apply Z.ltb_lt in Hlt. repeat constructor; simpl; lia.
    + repeat constructor.
  - repeat case_if; simpl; repeat constructor; simpl; lia.
Qed.

(** ** The bootstrap and the registry *)

(** Whatever its outcome, the bootstrap changes the registry at most under
    the guild of the interaction and leaves every object that existed as
    it was.  When a subscription is supplied, or when the caller is in no
    voice channel, it changes nothing at all; in the second case it tells
    the caller to join a channel first and returns no subscription. *)
Theorem bootstrap_touches_only_its_guild conn settled subscription interaction w :
  let '(w', out, result) :=
    joinVCAndCreateSubscription_run conn settled subscription interaction w in
  (forall guild, guild <> guildId interaction ->
                 subscriptions w' !! guild = subscriptions w !! guild) /\
  (forall ref sys, heap w !! ref = Some sys -> heap w' !! ref = Some sys) /\
  (forall ref, subscription = Some ref ->
               w' = w /\ out = [] /\ result = Some ref) /\
  (subscription = None -> member_voice_channel interaction = None ->
   w' = w /\ out = [FollowUp join_first_text] /\ result = None).
Proof.
  assert (Hframe : forall object ref sys,
             heap w !! ref = Some sys ->
             <[fresh (dom (heap w)) := object]> (heap w) !! ref = Some sys).
  { intros object ref sys Href. rewrite lookup_insert_ne; [done|].
    intros <-. apply (is_fresh (dom (heap w))), elem_of_dom. eauto. }
  unfold joinVCAndCreateSubscription_run, joinVCAndCreateSubscription.
  destruct subscription as [ref|]; simpl.
  { split; [done|]. split; [done|]. split; [|done].
    by intros ? [= ->]. }
  destruct (member_voice_channel interaction) as [voiceChannel|]; simpl.
  - destruct settled as [name|err]; simpl.
    + split; [intros guild Hne; by apply lookup_insert_ne|].
      split; [by apply Hframe|]. done.
    + split; [intros guild Hne; by apply lookup_insert_ne|].
      split; [by apply Hframe|]. done.
  - done.
Qed.

(** A successful bootstrap returns the subscription it registered: the
    registry maps the guild of the interaction to the returned reference,
    the object behind it is a new subscription bound to the caller's voice
    channel and to the channel of the interaction, and the caller is told
    the name of the channel joined.  Handing that reference to the
    bootstrap again returns it with no effect and no change. *)
Theorem bootstrap_success_registers_what_it_returns
    conn name interaction voiceChannel w :
  member_voice_channel interaction = Some voiceChannel ->
  exists ref w',
    joinVCAndCreateSubscription_run conn (inl name) None interaction w =
      (w', [EntersState Ready 20000; FollowUp (joined_text name)], Some ref) /\
    heap w !! ref = None /\
    subscriptions w' !! guildId interaction = Some ref /\
    heap w' !! ref =
      Some {| sub := new_MusicSubscription conn (channel_id voiceChannel)
                       (channelId interaction);
              loading := []; waiting := [] |} /\
    (forall conn' settled,
       joinVCAndCreateSubscription_run conn' settled
         (subscriptions w' !! guildId interaction) interaction w' =
       (w', [], Some ref)).
Proof.
  intros Hm.
  unfold joinVCAndCreateSubscription_run, joinVCAndCreateSubscription.
  rewrite Hm. simpl.
  eexists _, _. split; [reflexivity|]. simpl.
  rewrite !lookup_insert_eq. repeat split.
  apply not_elem_of_dom, is_fresh.
Qed.

Lemma bootstrap_success_registers_what_it_returns_witness :
  let conn := Sample.connection 0 in
  exists ref w',
    joinVCAndCreateSubscription_run conn (inl "General") None
      Sample.interaction Sample.empty_world =
      (w', [EntersState Ready 20000; FollowUp (joined_text "General")], Some ref) /\
    heap Sample.empty_world !! ref = None /\
    subscriptions w' !! "guild" = Some ref /\
    heap w' !! ref =
      Some {| sub := new_MusicSubscription conn "voice" "text";
              loading := []; waiting := [] |} /\
    (forall conn' settled,
       joinVCAndCreateSubscription_run conn' settled
         (subscriptions w' !! "guild") Sample.interaction w' =
       (w', [], Some ref)).
Proof.
  apply (bootstrap_success_registers_what_it_returns
           (Sample.connection 0) "General" Sample.interaction
           {| channel_id := "voice"; channel_guildId := "guild";
              channel_name := "General" |}
           Sample.empty_world).
  reflexivity.
Defined.

(** A bootstrap that is handed no subscription for a guild that has one
    registered replaces the entry: the registry then names a new object,
    and the earlier subscription, untouched, is no longer reachable through
    the registry. *)
Theorem bootstrap_replaces_registered_subscription
    conn interaction voiceChannel old sys w :
  member_voice_channel interaction = Some voiceChannel ->
  subscriptions w !! guildId interaction = Some old ->
  heap w !! old = Some sys ->
  exists ref w',
    joinVCAndCreateSubscription conn None interaction w =
      JoinSuspended w' [EntersState Ready 20000] ref /\
    ref <> old /\
    subscriptions w' !! guildId interaction = Some ref /\
    heap w' !! old = Some sys.
Proof.
  intros Hm Hreg Hold.
  unfold joinVCAndCreateSubscription. rewrite Hm. simpl.
  assert (Hne : fresh (dom (heap w)) <> old).
  { intros <-. apply (is_fresh (dom (heap w))), elem_of_dom. eauto. }
  eexists _, _. split; [reflexivity|]. simpl.
  split; [done|]. split; [apply lookup_insert_eq|].
  by rewrite lookup_insert_ne.
Qed.

Lemma bootstrap_replaces_registered_subscription_witness :
  exists ref w',
    joinVCAndCreateSubscription (Sample.connection 0) None Sample.interaction
      Sample.joined_world =
      JoinSuspended w' [EntersState Ready 20000] ref /\
    ref <> 0%nat /\
    subscriptions w' !! "guild" = Some ref /\
    heap w' !! 0%nat = Some Sample.fresh_sys.
Proof.
  apply (bootstrap_replaces_registered_subscription
           (Sample.connection 0) Sample.interaction
           {| channel_id := "voice"; channel_guildId := "guild";
              channel_name := "General" |}
           0%nat Sample.fresh_sys Sample.joined_world); reflexivity.
Defined.
